(** * Incremental re-evaluation of memoized expression trees

    A shallow embedding of [memoize.cpp]: expression trees whose leaves wrap
    references to host-owned integers, the dirty-marking context, the
    cache-evaluation context, [reevaluate] and the type-erased [renderer].

    Conventions of the embedding.
    - The host's variables live in a [store], a total map from variable
      names to values; an [input] keeps the name of the variable it refers
      to ([T& src]) and its private copy ([T cache]).
    - The value type is [int] ([cached_result]); a value is a [Z] and the
      arithmetic of [proto::default_eval] is taken modulo 2^32 (two's
      complement).
    - The nodes carry [mutable] fields that the two contexts update through
      a [const&]; the embedding passes the updated tree back explicitly.
    - Every visit of a node is recorded in a trace of [event]s, addressed by
      the path from the root (child indices), so that statements about which
      nodes a pass touches can be made about the code itself. *)

From Stdlib Require Import ZArith List String Bool Lia.
Import ListNotations.
Local Open Scope Z_scope.

(** ** Values and the host's variables *)

Definition loc := string.

Definition store := loc -> Z.

Definition update (env : store) (x : loc) (v : Z) : store :=
  fun y => if String.eqb x y then v else env y.

(** [int] arithmetic: the result brought back into [-2^31, 2^31). *)
Definition int_wrap (z : Z) : Z := (z + 2 ^ 31) mod 2 ^ 32 - 2 ^ 31.

(** [int()], the value-initialised [int]. *)
Definition int_default : Z := 0.

(** ** The expression tree *)

(** [struct input]: the referenced variable and the private cache. *)
Record input := mk_input { src : loc; cache : Z }.

(** [input(T& source) : src(source), cache()]. *)
Definition input_ctor (source : loc) : input :=
  {| src := source; cache := int_default |}.

(** Tags of binary operator nodes, among those that
    [BOOST_PROTO_DEFINE_OPERATORS] lets the host build: the arithmetic and
    bitwise operators that are total on [int]. *)
Inductive tag :=
| plus | minus | multiplies | bitwise_and | bitwise_or | bitwise_xor.

(** [memoize<Expr>]: every node, terminal or not, carries [result] and
    [dirty]; a terminal holds an [input], a binary node holds its two
    children by value. *)
Inductive expr :=
| Terminal (dirty : bool) (result : Z) (value : input)
| Binary (t : tag) (dirty : bool) (result : Z) (child0 child1 : expr).

(** [memoize(Expr const& expr) : base_type(expr), dirty(true)].  The field
    [result] is left uninitialised by the constructor; [garbage] stands for
    whatever it holds. *)
Definition memoize_terminal (garbage : Z) (v : input) : expr :=
  Terminal true garbage v.

Definition memoize_binary (t : tag) (garbage : Z) (l r : expr) : expr :=
  Binary t true garbage l r.

(** [in(t)] promoted to a terminal of the memoize domain. *)
Definition in_ (garbage : Z) (x : loc) : expr :=
  memoize_terminal garbage (input_ctor x).

Definition expr_dirty (e : expr) : bool :=
  match e with
  | Terminal d _ _ => d
  | Binary _ d _ _ _ => d
  end.

(** ** Instrumentation *)

Definition path := list nat.

Inductive action :=
| CompareAndMark (b : bool)   (* marking of a terminal, with its answer *)
| MarkNode (b : bool)         (* marking of an operator node, with its answer *)
| Refresh                     (* evaluation of a terminal *)
| Recompute                   (* evaluation of an operator node: operator applied *)
| CacheHit.                   (* evaluation of an operator node: cache returned *)

Record event := mk_event { where_ : path; what : action }.

Definition here (a : action) : event := {| where_ := []; what := a |}.

Definition under (i : nat) (ev : event) : event :=
  {| where_ := i :: where_ ev; what := what ev |}.

(** A computation that also produces a trace. *)
Definition Traced (A : Type) : Type := (A * list event)%type.

Definition ret {A : Type} (a : A) : Traced A := (a, []).

Definition bind {A B : Type} (m : Traced A) (f : A -> Traced B) : Traced B :=
  let '(a, tr1) := m in
  let '(b, tr2) := f a in
  (b, tr1 ++ tr2).

Definition emit (a : action) : Traced unit := (tt, [here a]).

(** Run [m] on child number [i]: its events are addressed below [i]. *)
Definition at_child {A : Type} (i : nat) (m : Traced A) : Traced A :=
  (fst m, map (under i) (snd m)).

Notation "x <- m ;; k" := (bind m (fun x => k))
  (at level 61, m at next level, right associativity).
Notation "' pat <- m ;; k" := (bind m (fun x => match x with pat => k end))
  (at level 61, pat pattern, m at next level, right associativity).
Notation "m ;;; k" := (bind m (fun _ => k))
  (at level 61, right associativity).

(** ** [proto::default_eval] on a binary node *)

(** Modelled from the spec: [proto::default_eval] is Boost.Proto's and is not
    among the sources of the repository.  The evaluation of a dirty node
    evaluates every child, unconditionally, and then applies the node's
    operator to the children's results; [default_eval] is that application,
    on [int].  Tags whose C++ operator does not evaluate both operands
    (logical and, logical or) are not part of the model. *)

Definition default_eval (t : tag) (x y : Z) : Z :=
  match t with
  | plus => int_wrap (x + y)
  | minus => int_wrap (x - y)
  | multiplies => int_wrap (x * y)
  | bitwise_and => Z.land x y
  | bitwise_or => Z.lor x y
  | bitwise_xor => Z.lxor x y
  end.

(** ** [mark_dirty_context] *)

(** One step of [fusion::fold]: [logical_or] applied to the state and to the
    child's answer, both already evaluated. *)
Definition fold_step (state child_answer : bool) : bool := state || child_answer.

Fixpoint mark_dirty (env : store) (e : expr) : Traced (bool * expr) :=
  match e with
  | Terminal _ res v =>
      let b := negb (Z.eqb (cache v) (env (src v))) in
      emit (CompareAndMark b) ;;;
      ret (b, Terminal b res v)
  | Binary t d res c0 c1 =>
      if d then
        emit (MarkNode d) ;;;
        ret (d, e)
      else
        ' (b0, c0') <- at_child 0 (mark_dirty env c0) ;;
        ' (b1, c1') <- at_child 1 (mark_dirty env c1) ;;
        let b := fold_step (fold_step false b0) b1 in
        emit (MarkNode b) ;;;
        ret (b, Binary t b res c0' c1')
  end.

(** ** [eval_cache_context] *)

(** The operands of a binary node are evaluated child 0 first. *)
Fixpoint eval_cache (env : store) (e : expr) : Traced (Z * expr) :=
  match e with
  | Terminal _ res v =>
      let v' := {| src := src v; cache := env (src v) |} in
      emit Refresh ;;;
      ret (cache v', Terminal false res v')
  | Binary t d res c0 c1 =>
      if d then
        ' (x0, c0') <- at_child 0 (eval_cache env c0) ;;
        ' (x1, c1') <- at_child 1 (eval_cache env c1) ;;
        let r := default_eval t x0 x1 in
        emit Recompute ;;;
        ret (r, Binary t false r c0' c1')
      else
        emit CacheHit ;;;
        ret (res, e)
  end.

(** ** [reevaluate] *)

Definition reevaluate (env : store) (e : expr) : Traced (Z * expr) :=
  ' (_, e1) <- mark_dirty env e ;;
  eval_cache env e1.

Definition reevaluate_value (env : store) (e : expr) : Z :=
  fst (fst (reevaluate env e)).

Definition reevaluate_tree (env : store) (e : expr) : expr :=
  snd (fst (reevaluate env e)).

Definition reevaluate_trace (env : store) (e : expr) : list event :=
  snd (reevaluate env e).

(** ** The demo host: [ui_element] *)

Definition i1 : loc := "i1"%string.
Definition i2 : loc := "i2"%string.
Definition i3 : loc := "i3"%string.

(** [in(i1) + in(i2) + in(i3)], with the uninitialised [result] fields
    [g1 .. g5] of its five nodes. *)
Definition ui_expr (g1 g2 g3 g4 g5 : Z) : expr :=
  memoize_binary plus g5
    (memoize_binary plus g4 (in_ g1 i1) (in_ g2 i2))
    (in_ g3 i3).

(** The host's variables after [ui_element()]: [i1 = 1; i2 = 11; i3 = 111]. *)
Definition ui_store : store :=
  update (update (update (fun _ => 0) i1 1) i2 11) i3 111.


(** [i2 += 5] in [_tmain]. *)
Definition ui_store_changed : store :=
  update ui_store i2 (int_wrap (ui_store i2 + 5)).

(** ** [renderer] *)

(** [std::function<void()> _f]: empty, or the closure [[=]() { reevaluate(e); }]
    with its captured copy of the tree. *)
Record renderer := mk_renderer { _f : option expr }.

Inductive exception := bad_function_call.

Inductive outcome (A : Type) :=
| Returned (a : A)
| Thrown (x : exception).
Arguments Returned {A} a.
Arguments Thrown {A} x.

(** [std::function::operator()]: throws when empty, otherwise runs the
    closure, whose captured tree is updated in place. *)
Definition function_call (env : store) (f : option expr)
  : outcome (option expr * list event) :=
  match f with
  | None => Thrown bad_function_call
  | Some e => Returned (Some (reevaluate_tree env e), reevaluate_trace env e)
  end.

(** [renderer::operator=(Expr& e)]. *)
Definition renderer_assign (r : renderer) (e : expr) : renderer :=
  {| _f := Some e |}.

(** [renderer::operator()()]: [if (_f) _f();]. *)
Definition renderer_call (env : store) (r : renderer)
  : outcome (renderer * list event) :=
  match _f r with
  | Some _ =>
      match function_call env (_f r) with
      | Returned (f', tr) => Returned ({| _f := f' |}, tr)
      | Thrown x => Thrown x
      end
  | None => Returned (r, [])
  end.

(** ** Projections of the two passes *)

Definition mark_flag (env : store) (e : expr) : bool :=
  fst (fst (mark_dirty env e)).

Definition mark_tree (env : store) (e : expr) : expr :=
  snd (fst (mark_dirty env e)).

Definition mark_trace (env : store) (e : expr) : list event :=
  snd (mark_dirty env e).

Definition eval_value (env : store) (e : expr) : Z :=
  fst (fst (eval_cache env e)).

Definition eval_tree (env : store) (e : expr) : expr :=
  snd (fst (eval_cache env e)).

Definition eval_trace (env : store) (e : expr) : list event :=
  snd (eval_cache env e).

(** ** Reading a trace *)

Definition is_compare (a : action) : bool :=
  match a with CompareAndMark _ => true | _ => false end.

Definition is_compare_with (b : bool) (a : action) : bool :=
  match a with CompareAndMark b' => Bool.eqb b b' | _ => false end.

Definition is_refresh (a : action) : bool :=
  match a with Refresh => true | _ => false end.

Definition is_recompute (a : action) : bool :=
  match a with Recompute => true | _ => false end.

Definition is_cache_hit (a : action) : bool :=
  match a with CacheHit => true | _ => false end.

(** The nodes, in order of occurrence, at which an action of kind [k] took
    place. *)
Definition visited (k : action -> bool) (tr : list event) : list path :=
  map where_ (filter (fun ev => k (what ev)) tr).

(** The event a node's own marking operation leaves, as the last one of its
    trace. *)
Definition own_mark_event (env : store) (e : expr) : event :=
  match e with
  | Terminal _ _ _ => here (CompareAndMark (mark_flag env e))
  | Binary _ _ _ _ _ => here (MarkNode (mark_flag env e))
  end.

(** ** The shape of a tree *)

Definition is_terminal (e : expr) : bool :=
  match e with Terminal _ _ _ => true | Binary _ _ _ _ _ => false end.

Fixpoint terminal_paths (e : expr) : list path :=
  match e with
  | Terminal _ _ _ => [[]]
  | Binary _ _ _ c0 c1 =>
      map (cons 0%nat) (terminal_paths c0) ++ map (cons 1%nat) (terminal_paths c1)
  end.

(** Operator nodes, children before their parent. *)
Fixpoint operator_paths (e : expr) : list path :=
  match e with
  | Terminal _ _ _ => []
  | Binary _ _ _ c0 c1 =>
      map (cons 0%nat) (operator_paths c0) ++ map (cons 1%nat) (operator_paths c1)
      ++ [[]]
  end.

Fixpoint terminal_caches (e : expr) : list Z :=
  match e with
  | Terminal _ _ v => [cache v]
  | Binary _ _ _ c0 c1 => terminal_caches c0 ++ terminal_caches c1
  end.

(** Every node's [dirty] flag, terminals included, is set / is clear. *)
Fixpoint every_dirty (e : expr) : bool :=
  match e with
  | Terminal d _ _ => d
  | Binary _ d _ c0 c1 => d && every_dirty c0 && every_dirty c1
  end.

Fixpoint every_clean (e : expr) : bool :=
  match e with
  | Terminal d _ _ => negb d
  | Binary _ d _ c0 c1 => negb d && every_clean c0 && every_clean c1
  end.

(** ** Direct evaluation *)

(** Uncached evaluation of the expression over the host's variables: what
    the tree denotes, whatever its flags and caches hold. *)
Fixpoint direct_eval (env : store) (e : expr) : Z :=
  match e with
  | Terminal _ _ v => env (src v)
  | Binary t _ _ c0 c1 =>
      default_eval t (direct_eval env c0) (direct_eval env c1)
  end.

(** ** The host as a state machine *)

(** Trees as the host builds them: [in(x)] at the leaves, operators above. *)
Inductive built : expr -> Prop :=
| built_in : forall g x, built (in_ g x)
| built_binary : forall t g l r,
    built l -> built r -> built (memoize_binary t g l r).

Record host := mk_host { vars : store; tree : expr }.

Inductive step : host -> host -> Prop :=
| step_mutate : forall h x v,
    step h {| vars := update (vars h) x v; tree := tree h |}
| step_reevaluate : forall h,
    step h {| vars := vars h; tree := reevaluate_tree (vars h) (tree h) |}.

Inductive reachable : host -> Prop :=
| reach_built : forall env e, built e -> reachable {| vars := env; tree := e |}
| reach_step : forall h h', reachable h -> step h h' -> reachable h'.

(** ** Invariants *)

(** Every operator node is dirty (the state of a tree no evaluation has
    gone through). *)
Fixpoint operators_dirty (e : expr) : Prop :=
  match e with
  | Terminal _ _ _ => True
  | Binary _ d _ c0 c1 => d = true /\ operators_dirty c0 /\ operators_dirty c1
  end.

(** Every flag is clear, every terminal's cache is the variable's value in
    [env] and every operator's [result] is the value of its subtree in
    [env]. *)
Fixpoint in_sync (env : store) (e : expr) : Prop :=
  match e with
  | Terminal d _ v => d = false /\ cache v = env (src v)
  | Binary t d res c0 c1 =>
      d = false /\ res = direct_eval env e /\ in_sync env c0 /\ in_sync env c1
  end.

(** What the evaluation pass relies on: a clean operator node heads a
    subtree that is in sync with [env]. *)
Fixpoint ready (env : store) (e : expr) : Prop :=
  match e with
  | Terminal _ _ _ => True
  | Binary _ d _ c0 c1 =>
      if d then ready env c0 /\ ready env c1 else in_sync env e
  end.

(** The cache invariant, read on the code: at every operator node whose
    [dirty] flag is clear, [result] is the operator applied to what
    evaluating each child returns. *)
Fixpoint cache_valid (env : store) (e : expr) : bool :=
  match e with
  | Terminal _ _ _ => true
  | Binary t d res c0 c1 =>
      (d || Z.eqb res (default_eval t (eval_value env c0) (eval_value env c1)))
      && cache_valid env c0 && cache_valid env c1
  end.

(** [(in(a) + in(b)) + (in(c) + in(d))], with the uninitialised [result]
    fields of its seven nodes. *)
Definition pair_of_sums (a b c d : loc) (ga gb gc gd gl gr g : Z) : expr :=
  memoize_binary plus g
    (memoize_binary plus gl (in_ ga a) (in_ gb b))
    (memoize_binary plus gr (in_ gc c) (in_ gd d)).

(** The states a tree is left in between two calls. *)
Definition settled (e : expr) : Prop :=
  operators_dirty e \/ exists env0, in_sync env0 e.

(** The variable a terminal refers to, found by its path. *)
Fixpoint src_at (e : expr) (p : path) : option loc :=
  match e, p with
  | Terminal _ _ v, [] => Some (src v)
  | Binary _ _ _ c0 _, 0%nat :: p' => src_at c0 p'
  | Binary _ _ _ _ c1, 1%nat :: p' => src_at c1 p'
  | _, _ => None
  end.

(** A [renderer] nothing was assigned to: its [_f] is empty. *)
Definition renderer_default : renderer := {| _f := None |}.

(** The states [_tmain] goes through: the host right after [ui_element()],
    after [e.render()], and after [e.i2 += 5]. *)
Definition ui_host_built : host :=
  {| vars := ui_store; tree := ui_expr 0 0 0 0 0 |}.

Definition ui_host_rendered : host :=
  {| vars := vars ui_host_built;
     tree := reevaluate_tree (vars ui_host_built) (tree ui_host_built) |}.

Definition ui_host_changed : host :=
  {| vars := update (vars ui_host_rendered) i2 (int_wrap (ui_store i2 + 5));
     tree := tree ui_host_rendered |}.

(** ** Reading a tree *)

(** The variables the terminals refer to, in the order of [terminal_paths]. *)
Fixpoint sources (e : expr) : list loc :=
  match e with
  | Terminal _ _ v => [src v]
  | Binary _ _ _ c0 c1 => sources c0 ++ sources c1
  end.

(** What [operator=] and the constructors fix once and for all: the tags
    and the variables referred to, without any [mutable] field. *)
Inductive skeleton :=
| SLeaf (x : loc)
| SNode (t : tag) (l r : skeleton).

Fixpoint skeleton_of (e : expr) : skeleton :=
  match e with
  | Terminal _ _ v => SLeaf (src v)
  | Binary t _ _ c0 c1 => SNode t (skeleton_of c0) (skeleton_of c1)
  end.

(** The tree with every [dirty] flag cleared: what is left of it apart
    from the flags. *)
Fixpoint forget_flags (e : expr) : expr :=
  match e with
  | Terminal _ res v => Terminal false res v
  | Binary t _ res c0 c1 => Binary t false res (forget_flags c0) (forget_flags c1)
  end.

(** Operator nodes whose [dirty] flag is set, children before their parent. *)
Fixpoint dirty_operators (e : expr) : list path :=
  match e with
  | Terminal _ _ _ => []
  | Binary _ d _ c0 c1 =>
      map (cons 0%nat) (dirty_operators c0) ++ map (cons 1%nat) (dirty_operators c1)
      ++ (if d then [[]] else [])
  end.

(** Some terminal of the subtree holds a cache that differs from its
    variable. *)
Fixpoint stale (env : store) (e : expr) : bool :=
  match e with
  | Terminal _ _ v => negb (Z.eqb (cache v) (env (src v)))
  | Binary _ _ _ c0 c1 => stale env c0 || stale env c1
  end.

(** The tree with the flag of every node telling whether its subtree is
    stale. *)
Fixpoint flag_stale (env : store) (e : expr) : expr :=
  match e with
  | Terminal _ res v => Terminal (stale env e) res v
  | Binary t _ res c0 c1 =>
      Binary t (stale env e) res (flag_stale env c0) (flag_stale env c1)
  end.

(** Operator nodes above a stale terminal, children before their parent. *)
Fixpoint stale_operators (env : store) (e : expr) : list path :=
  match e with
  | Terminal _ _ _ => []
  | Binary _ _ _ c0 c1 =>
      map (cons 0%nat) (stale_operators env c0)
      ++ map (cons 1%nat) (stale_operators env c1)
      ++ (if stale env e then [[]] else [])
  end.

(** Operator nodes without a stale terminal below whose parent has one (or
    which have no parent). *)
Fixpoint kept_operators (env : store) (e : expr) : list path :=
  match e with
  | Terminal _ _ _ => []
  | Binary _ _ _ c0 c1 =>
      if stale env e
      then map (cons 0%nat) (kept_operators env c0)
           ++ map (cons 1%nat) (kept_operators env c1)
      else [[]]
  end.

(** Terminals that are a child of an operator node above a stale terminal
    (or that are the whole tree). *)
Fixpoint reread_terminals (env : store) (e : expr) : list path :=
  match e with
  | Terminal _ _ _ => [[]]
  | Binary _ _ _ c0 c1 =>
      if stale env e
      then map (cons 0%nat) (reread_terminals env c0)
           ++ map (cons 1%nat) (reread_terminals env c1)
      else []
  end.

(** [l1] is [l2] with some elements left out. *)
Inductive subseq {A : Type} : list A -> list A -> Prop :=
| subseq_nil : subseq [] []
| subseq_skip : forall x l1 l2, subseq l1 l2 -> subseq l1 (x :: l2)
| subseq_keep : forall x l1 l2, subseq l1 l2 -> subseq (x :: l1) (x :: l2).

(** The values returned by successive calls of [reevaluate] on the same
    tree, one call per store. *)
Fixpoint run (e : expr) (envs : list store) : list Z :=
  match envs with
  | [] => []
  | env :: rest => reevaluate_value env e :: run (reevaluate_tree env e) rest
  end.

(** Successive calls of a [renderer], one per store: the renderer after the
    last call, or the exception that ended the run. *)
Fixpoint renderer_calls (r : renderer) (envs : list store) : outcome renderer :=
  match envs with
  | [] => Returned r
  | env :: rest =>
      match renderer_call env r with
      | Returned (r', _) => renderer_calls r' rest
      | Thrown x => Thrown x
      end
  end.

(** The tree after successive calls of [reevaluate], one per store. *)
Fixpoint run_tree (e : expr) (envs : list store) : expr :=
  match envs with
  | [] => e
  | env :: rest => run_tree (reevaluate_tree env e) rest
  end.

(** What a call is to return on a tree without a dirty flag, read off the
    fields: a terminal gives its variable, an operator node above a stale
    terminal gives its operator applied to what its children give, any
    other operator node gives the [result] it holds. *)
Fixpoint refreshed_value (env : store) (e : expr) : Z :=
  match e with
  | Terminal _ _ v => env (src v)
  | Binary t _ res c0 c1 =>
      if stale env e
      then default_eval t (refreshed_value env c0) (refreshed_value env c1)
      else res
  end.

(** The tree such a call is to leave: below an operator node above a stale
    terminal every child is brought up to date (a terminal's cache takes
    its variable's value, an operator's [result] the value just computed),
    and an operator node without a stale terminal below is left as it is. *)
Fixpoint refreshed_tree (env : store) (e : expr) : expr :=
  match e with
  | Terminal _ res v => Terminal false res {| src := src v; cache := env (src v) |}
  | Binary t _ res c0 c1 =>
      if stale env e
      then Binary t false (refreshed_value env e)
             (refreshed_tree env c0) (refreshed_tree env c1)
      else e
  end.

(** * Equations of the two passes *)

Section PassEquations.

Variable env : store.

Lemma mark_dirty_terminal : forall d res v,
  mark_dirty env (Terminal d res v) =
  let b := negb (Z.eqb (cache v) (env (src v))) in
  ((b, Terminal b res v), [here (CompareAndMark b)]).
Proof. reflexivity. Qed.

Lemma mark_dirty_dirty : forall t res c0 c1,
  mark_dirty env (Binary t true res c0 c1) =
  ((true, Binary t true res c0 c1), [here (MarkNode true)]).
Proof. reflexivity. Qed.

Lemma mark_dirty_clean : forall t res c0 c1,
  mark_dirty env (Binary t false res c0 c1) =
  let b := mark_flag env c0 || mark_flag env c1 in
  ((b, Binary t b res (mark_tree env c0) (mark_tree env c1)),
   map (under 0) (mark_trace env c0) ++ map (under 1) (mark_trace env c1)
   ++ [here (MarkNode b)]).
Proof.
  intros. unfold mark_flag, mark_tree, mark_trace. simpl.
  destruct (mark_dirty env c0) as [[b0 c0'] tr0].
  destruct (mark_dirty env c1) as [[b1 c1'] tr1].
  reflexivity.
Qed.

Lemma eval_cache_terminal : forall d res v,
  eval_cache env (Terminal d res v) =
  ((env (src v), Terminal false res {| src := src v; cache := env (src v) |}),
   [here Refresh]).
Proof. reflexivity. Qed.

Lemma eval_cache_clean : forall t res c0 c1,
  eval_cache env (Binary t false res c0 c1) =
  ((res, Binary t false res c0 c1), [here CacheHit]).
Proof. reflexivity. Qed.

Lemma eval_cache_dirty : forall t res c0 c1,
  eval_cache env (Binary t true res c0 c1) =
  let r := default_eval t (eval_value env c0) (eval_value env c1) in
  ((r, Binary t false r (eval_tree env c0) (eval_tree env c1)),
   map (under 0) (eval_trace env c0) ++ map (under 1) (eval_trace env c1)
   ++ [here Recompute]).
Proof.
  intros. unfold eval_value, eval_tree, eval_trace. simpl.
  destruct (eval_cache env c0) as [[x0 c0'] tr0].
  destruct (eval_cache env c1) as [[x1 c1'] tr1].
  reflexivity.
Qed.

Lemma reevaluate_eq : forall e,
  reevaluate env e =
  ((eval_value env (mark_tree env e), eval_tree env (mark_tree env e)),
   mark_trace env e ++ eval_trace env (mark_tree env e)).
Proof.
  intros. unfold reevaluate, eval_value, eval_tree, eval_trace,
    mark_tree, mark_trace, bind.
  destruct (mark_dirty env e) as [[b e1] tr1]. simpl.
  destruct (eval_cache env e1) as [[x e2] tr2]. reflexivity.
Qed.

Lemma reevaluate_value_eq : forall e,
  reevaluate_value env e = eval_value env (mark_tree env e).
Proof. intros. unfold reevaluate_value. now rewrite reevaluate_eq. Qed.

Lemma reevaluate_tree_eq : forall e,
  reevaluate_tree env e = eval_tree env (mark_tree env e).
Proof. intros. unfold reevaluate_tree. now rewrite reevaluate_eq. Qed.

Lemma reevaluate_trace_eq : forall e,
  reevaluate_trace env e = mark_trace env e ++ eval_trace env (mark_tree env e).
Proof. intros. unfold reevaluate_trace. now rewrite reevaluate_eq. Qed.

(** Projections, node by node. *)

Lemma mark_flag_terminal : forall d res v,
  mark_flag env (Terminal d res v) = negb (Z.eqb (cache v) (env (src v))).
Proof. reflexivity. Qed.

Lemma mark_tree_terminal : forall d res v,
  mark_tree env (Terminal d res v) =
  Terminal (negb (Z.eqb (cache v) (env (src v)))) res v.
Proof. reflexivity. Qed.

Lemma mark_flag_clean : forall t res c0 c1,
  mark_flag env (Binary t false res c0 c1) =
  mark_flag env c0 || mark_flag env c1.
Proof. intros. unfold mark_flag at 1. now rewrite mark_dirty_clean. Qed.

Lemma mark_tree_clean : forall t res c0 c1,
  mark_tree env (Binary t false res c0 c1) =
  Binary t (mark_flag env c0 || mark_flag env c1) res
    (mark_tree env c0) (mark_tree env c1).
Proof. intros. unfold mark_tree at 1. now rewrite mark_dirty_clean. Qed.

Lemma mark_trace_clean : forall t res c0 c1,
  mark_trace env (Binary t false res c0 c1) =
  map (under 0) (mark_trace env c0) ++ map (under 1) (mark_trace env c1)
  ++ [here (MarkNode (mark_flag env c0 || mark_flag env c1))].
Proof. intros. unfold mark_trace at 1. now rewrite mark_dirty_clean. Qed.

Lemma eval_value_dirty : forall t res c0 c1,
  eval_value env (Binary t true res c0 c1) =
  default_eval t (eval_value env c0) (eval_value env c1).
Proof. intros. unfold eval_value at 1. now rewrite eval_cache_dirty. Qed.

Lemma eval_tree_dirty : forall t res c0 c1,
  eval_tree env (Binary t true res c0 c1) =
  Binary t false (default_eval t (eval_value env c0) (eval_value env c1))
    (eval_tree env c0) (eval_tree env c1).
Proof. intros. unfold eval_tree at 1. now rewrite eval_cache_dirty. Qed.

Lemma eval_trace_dirty : forall t res c0 c1,
  eval_trace env (Binary t true res c0 c1) =
  map (under 0) (eval_trace env c0) ++ map (under 1) (eval_trace env c1)
  ++ [here Recompute].
Proof. intros. unfold eval_trace at 1. now rewrite eval_cache_dirty. Qed.

(** The flag a marking returns is the flag it leaves on the node. *)
Lemma mark_flag_is_dirty : forall e,
  expr_dirty (mark_tree env e) = mark_flag env e.
Proof.
  destruct e as [d res v | t [|] res c0 c1]; try reflexivity.
  now rewrite mark_tree_clean, mark_flag_clean.
Qed.

(** Neither pass changes what the tree denotes. *)
Lemma direct_eval_mark : forall env' e,
  direct_eval env' (mark_tree env e) = direct_eval env' e.
Proof.
  induction e as [d res v | t d res c0 IH0 c1 IH1]; [reflexivity|].
  destruct d; [reflexivity|].
  rewrite mark_tree_clean. simpl. now rewrite IH0, IH1.
Qed.

Lemma direct_eval_eval : forall env' e,
  direct_eval env' (eval_tree env e) = direct_eval env' e.
Proof.
  induction e as [d res v | t d res c0 IH0 c1 IH1]; [reflexivity|].
  destruct d; [|reflexivity].
  rewrite eval_tree_dirty. simpl. now rewrite IH0, IH1.
Qed.

Lemma terminal_paths_mark : forall e,
  terminal_paths (mark_tree env e) = terminal_paths e.
Proof.
  induction e as [d res v | t d res c0 IH0 c1 IH1]; [reflexivity|].
  destruct d; [reflexivity|].
  rewrite mark_tree_clean. simpl. now rewrite IH0, IH1.
Qed.

Lemma operator_paths_mark : forall e,
  operator_paths (mark_tree env e) = operator_paths e.
Proof.
  induction e as [d res v | t d res c0 IH0 c1 IH1]; [reflexivity|].
  destruct d; [reflexivity|].
  rewrite mark_tree_clean. simpl. now rewrite IH0, IH1.
Qed.

End PassEquations.

(** * The invariants of the engine *)

Section Invariants.

Variable env : store.

Lemma built_operators_dirty : forall e, built e -> operators_dirty e.
Proof. induction 1; simpl; auto. Qed.

Lemma built_every_dirty : forall e, built e -> every_dirty e = true.
Proof.
  induction 1 as [g x | t g l r _ IHl _ IHr]; simpl; [reflexivity|].
  now rewrite IHl, IHr.
Qed.

Lemma operators_dirty_ready : forall e, operators_dirty e -> ready env e.
Proof.
  induction e as [d res v | t d res c0 IH0 c1 IH1]; simpl; [trivial|].
  intros (-> & H0 & H1). auto.
Qed.

Lemma mark_operators_dirty : forall e,
  operators_dirty e -> operators_dirty (mark_tree env e).
Proof.
  destruct e as [d res v | t d res c0 c1]; [simpl; trivial|].
  intros H. destruct H as (-> & H0 & H1). simpl. auto.
Qed.

Lemma in_sync_ready : forall e, in_sync env e -> ready env e.
Proof.
  destruct e as [d res v | t d res c0 c1]; [simpl; trivial|].
  intros H. assert (d = false) as -> by apply H. exact H.
Qed.

Lemma in_sync_every_clean : forall e, in_sync env e -> every_clean e = true.
Proof.
  induction e as [d res v | t d res c0 IH0 c1 IH1].
  - intros [-> _]. reflexivity.
  - intros (-> & _ & H0 & H1). simpl. now rewrite IH0, IH1.
Qed.

(** Marking a tree that was in sync with the variables as they were:
    the tree is ready for evaluation in the present variables, and where
    the marking answers [false] nothing below has changed. *)
Lemma mark_in_sync : forall env0 e,
  in_sync env0 e ->
  ready env (mark_tree env e) /\
  (mark_flag env e = false ->
   in_sync env (mark_tree env e) /\ direct_eval env e = direct_eval env0 e).
Proof.
  intros env0.
  induction e as [d res v | t d res c0 IH0 c1 IH1].
  - intros [-> Hc]. split; [exact I|].
    rewrite mark_flag_terminal, mark_tree_terminal. intros Hb.
    apply negb_false_iff, Z.eqb_eq in Hb.
    simpl. rewrite Hb, Z.eqb_refl. simpl. repeat split; congruence.
  - intros (-> & Hres & H0 & H1).
    destruct (IH0 H0) as [R0 S0], (IH1 H1) as [R1 S1].
    rewrite mark_tree_clean, mark_flag_clean.
    assert (Hclean : mark_flag env c0 || mark_flag env c1 = false ->
              in_sync env (Binary t false res (mark_tree env c0) (mark_tree env c1))
              /\ direct_eval env (Binary t false res c0 c1)
                 = direct_eval env0 (Binary t false res c0 c1)).
    { intros Hb. apply orb_false_iff in Hb. destruct Hb as [Hb0 Hb1].
      destruct (S0 Hb0) as [I0 E0], (S1 Hb1) as [I1 E1].
      simpl. rewrite !direct_eval_mark, E0, E1.
      repeat split; auto. }
    destruct (mark_flag env c0 || mark_flag env c1) eqn:Hb.
    + split; [simpl; auto | discriminate].
    + split; [apply Hclean; reflexivity | exact Hclean].
Qed.

(** The evaluation pass on a ready tree returns what the tree denotes and
    leaves it in sync with the variables. *)
Lemma eval_ready : forall e,
  ready env e ->
  eval_value env e = direct_eval env e /\ in_sync env (eval_tree env e).
Proof.
  induction e as [d res v | t d res c0 IH0 c1 IH1].
  - intros _. split; [reflexivity|]. simpl. auto.
  - destruct d.
    + intros [R0 R1].
      destruct (IH0 R0) as [V0 I0], (IH1 R1) as [V1 I1].
      rewrite eval_value_dirty, eval_tree_dirty, V0, V1.
      split; [reflexivity|].
      simpl. rewrite !direct_eval_eval. auto.
    + intros H. split; [|exact H].
      destruct H as (_ & Hres & _). exact Hres.
Qed.

Lemma settled_mark_ready : forall e, settled e -> ready env (mark_tree env e).
Proof.
  intros e [H | [env0 H]].
  - apply operators_dirty_ready, mark_operators_dirty, H.
  - apply (mark_in_sync env0), H.
Qed.

Lemma reevaluate_settled : forall e,
  settled e ->
  reevaluate_value env e = direct_eval env e /\
  in_sync env (reevaluate_tree env e).
Proof.
  intros e H. rewrite reevaluate_value_eq, reevaluate_tree_eq.
  destruct (eval_ready _ (settled_mark_ready e H)) as [V S].
  rewrite V, direct_eval_mark. auto.
Qed.

End Invariants.

Lemma step_settled : forall h h', step h h' -> settled (tree h) -> settled (tree h').
Proof.
  intros h h' [h0 x v | h0] H; simpl.
  - exact H.
  - right. exists (vars h0). apply reevaluate_settled, H.
Qed.

Lemma reachable_settled : forall h, reachable h -> settled (tree h).
Proof.
  induction 1 as [env e B | h h' _ IH S].
  - left. apply built_operators_dirty, B.
  - eapply step_settled; eauto.
Qed.

Lemma ui_host_built_reachable : reachable ui_host_built.
Proof. apply reach_built. repeat constructor. Qed.

Lemma ui_host_rendered_reachable : reachable ui_host_rendered.
Proof.
  apply (reach_step ui_host_built); [apply ui_host_built_reachable|].
  apply step_reevaluate.
Qed.

Lemma ui_host_changed_reachable : reachable ui_host_changed.
Proof.
  apply (reach_step ui_host_rendered); [apply ui_host_rendered_reachable|].
  apply step_mutate.
Qed.

(** * Correctness of [reevaluate] *)

(** C1.  In every state the host can reach by building a tree and then
    interleaving mutations of its variables with calls to [reevaluate], the
    call returns the value that direct, uncached evaluation of the
    expression gives in the variables as they are at the call. *)
Theorem reevaluate_refines_direct_eval : forall h,
  reachable h ->
  reevaluate_value (vars h) (tree h) = direct_eval (vars h) (tree h).
Proof.
  intros h R. apply reevaluate_settled, reachable_settled, R.
Qed.

Lemma reevaluate_refines_direct_eval_witness :
  reachable ui_host_changed /\
  reevaluate_value (vars ui_host_changed) (tree ui_host_changed)
  = direct_eval (vars ui_host_changed) (tree ui_host_changed).
Proof.
  split.
  - apply ui_host_changed_reachable.
  - apply (reevaluate_refines_direct_eval ui_host_changed).
    apply ui_host_changed_reachable.
Defined.

(** C3.  Two consecutive calls of [reevaluate] with the variables unchanged
    in between return equal results, and after the first of them every
    node's [dirty] flag is clear. *)
Theorem reevaluate_idempotent : forall h,
  reachable h ->
  reevaluate_value (vars h) (tree h)
  = reevaluate_value (vars h) (reevaluate_tree (vars h) (tree h))
  /\ every_clean (reevaluate_tree (vars h) (tree h)) = true.
Proof.
  intros h R.
  destruct (reevaluate_settled (vars h) _ (reachable_settled h R)) as [V S].
  split.
  - rewrite V.
    destruct (reevaluate_settled (vars h) (reevaluate_tree (vars h) (tree h)))
      as [V' _].
    { right. exists (vars h). exact S. }
    rewrite V', reevaluate_tree_eq, direct_eval_eval, direct_eval_mark.
    reflexivity.
  - eapply in_sync_every_clean, S.
Qed.

Lemma reevaluate_idempotent_witness :
  reachable ui_host_changed /\
  reevaluate_value (vars ui_host_changed) (tree ui_host_changed)
  = reevaluate_value (vars ui_host_changed)
      (reevaluate_tree (vars ui_host_changed) (tree ui_host_changed))
  /\ every_clean (reevaluate_tree (vars ui_host_changed) (tree ui_host_changed))
     = true.
Proof.
  split.
  - apply ui_host_changed_reachable.
  - apply (reevaluate_idempotent ui_host_changed).
    apply ui_host_changed_reachable.
Defined.

(** C8.  The tree [in(i1) + in(i2) + in(i3)] of [ui_element], with
    [i1 = 1], [i2 = 11] and [i3 = 111]: [reevaluate] returns 123, whatever
    the uninitialised [result] fields hold. *)
Theorem ui_element_first_render : forall g1 g2 g3 g4 g5,
  reevaluate_value ui_store (ui_expr g1 g2 g3 g4 g5) = 123.
Proof. intros. vm_compute. reflexivity. Qed.

(** * The [renderer] *)

(** A [renderer] a tree was assigned to runs [reevaluate] on its own copy
    of the tree and keeps the updated copy. *)
Lemma renderer_call_bound : forall env r e,
  renderer_call env (renderer_assign r e)
  = Returned ({| _f := Some (reevaluate_tree env e) |}, reevaluate_trace env e).
Proof. reflexivity. Qed.

(** Calling an empty [std::function] throws; the test in
    [renderer::operator()] keeps the call from being made. *)
Lemma function_call_empty : forall env,
  function_call env None = Thrown bad_function_call.
Proof. reflexivity. Qed.

(** C9.  Calling a [renderer] whose [_f] is empty returns normally, leaves
    the renderer as it was and touches no node. *)
Theorem renderer_call_unbound : forall env,
  renderer_call env renderer_default = Returned (renderer_default, []).
Proof. intros env. reflexivity. Qed.

(** * What the passes visit *)

Section Traces.

Variable k : action -> bool.

Lemma visited_app : forall tr1 tr2,
  visited k (tr1 ++ tr2) = visited k tr1 ++ visited k tr2.
Proof. intros. unfold visited. now rewrite filter_app, map_app. Qed.

Lemma visited_under : forall i tr,
  visited k (map (under i) tr) = map (cons i) (visited k tr).
Proof.
  intros i. unfold visited.
  induction tr as [|ev tr IH]; simpl; [reflexivity|].
  destruct (k (what ev)); simpl; now rewrite IH.
Qed.

Lemma visited_here : forall a,
  visited k [here a] = if k a then [[]] else [].
Proof. intros a. unfold visited. simpl. now destruct (k a). Qed.

(** A marking pass leaves marking events only, an evaluation pass leaves
    evaluation events only. *)
Lemma visited_mark_trace_nil : forall env e,
  (forall b, k (CompareAndMark b) = false) ->
  (forall b, k (MarkNode b) = false) ->
  visited k (mark_trace env e) = [].
Proof.
  intros env e Hc Hm.
  induction e as [d res v | t d res c0 IH0 c1 IH1].
  - unfold mark_trace. rewrite mark_dirty_terminal. simpl snd.
    now rewrite visited_here, Hc.
  - destruct d.
    + unfold mark_trace. rewrite mark_dirty_dirty. simpl snd.
      now rewrite visited_here, Hm.
    + rewrite mark_trace_clean, !visited_app, !visited_under, IH0, IH1.
      now rewrite visited_here, Hm.
Qed.

Lemma visited_eval_trace_nil : forall env e,
  k Refresh = false -> k Recompute = false -> k CacheHit = false ->
  visited k (eval_trace env e) = [].
Proof.
  intros env e Hf Hr Hh.
  induction e as [d res v | t d res c0 IH0 c1 IH1].
  - unfold eval_trace. rewrite eval_cache_terminal. simpl snd.
    now rewrite visited_here, Hf.
  - destruct d.
    + rewrite eval_trace_dirty, !visited_app, !visited_under, IH0, IH1.
      now rewrite visited_here, Hr.
    + unfold eval_trace. rewrite eval_cache_clean. simpl snd.
      now rewrite visited_here, Hh.
Qed.

End Traces.

(** Marking a tree without a dirty flag compares every terminal, once, in
    order. *)
Lemma mark_clean_compares_all : forall env e,
  every_clean e = true ->
  visited is_compare (mark_trace env e) = terminal_paths e.
Proof.
  intros env.
  induction e as [d res v | t d res c0 IH0 c1 IH1]; simpl; intros H.
  - reflexivity.
  - apply andb_true_iff in H. destruct H as [H H1].
    apply andb_true_iff in H. destruct H as [Hd H0].
    apply negb_true_iff in Hd. subst d.
    rewrite mark_trace_clean, !visited_app, !visited_under, IH0, IH1 by assumption.
    rewrite visited_here. simpl. now rewrite app_nil_r.
Qed.

(** Evaluating a tree whose operators are all dirty applies every operator
    and refreshes every terminal. *)
Lemma eval_dirty_visits_all : forall env e,
  operators_dirty e ->
  visited is_recompute (eval_trace env e) = operator_paths e /\
  visited is_refresh (eval_trace env e) = terminal_paths e /\
  visited is_cache_hit (eval_trace env e) = [].
Proof.
  intros env.
  induction e as [d res v | t d res c0 IH0 c1 IH1].
  - intros _. repeat split.
  - intros (-> & H0 & H1).
    destruct (IH0 H0) as (A0 & B0 & C0), (IH1 H1) as (A1 & B1 & C1).
    rewrite eval_trace_dirty, !visited_app, !visited_under.
    rewrite A0, A1, B0, B1, C0, C1, !visited_here. simpl.
    now rewrite app_nil_r.
Qed.

(** The last event of a marking is the node's own. *)
Lemma mark_trace_ends_with_own : forall env e,
  exists tr, mark_trace env e = tr ++ [own_mark_event env e].
Proof.
  intros env [d res v | t [|] res c0 c1].
  - exists []. reflexivity.
  - exists []. reflexivity.
  - rewrite mark_trace_clean.
    exists (map (under 0) (mark_trace env c0) ++ map (under 1) (mark_trace env c1)).
    rewrite <- app_assoc. simpl own_mark_event. now rewrite mark_flag_clean.
Qed.

(** * The marking pass *)

(** C7.  Marking an operator node whose [dirty] flag is set returns [true]
    at once: the node is left as it is and no child is visited.  Otherwise
    child 0 and then child 1 are marked, whatever child 0 answered, each
    leaving its own marking event, the node's flag becomes the disjunction
    of the two answers, and that is the answer. *)
Theorem mark_dirty_operator : forall env t res c0 c1,
  mark_dirty env (Binary t true res c0 c1)
  = ((true, Binary t true res c0 c1), [here (MarkNode true)])
  /\
  exists tr0 tr1,
    mark_trace env c0 = tr0 ++ [own_mark_event env c0] /\
    mark_trace env c1 = tr1 ++ [own_mark_event env c1] /\
    let b := mark_flag env c0 || mark_flag env c1 in
    mark_dirty env (Binary t false res c0 c1)
    = ((b, Binary t b res (mark_tree env c0) (mark_tree env c1)),
       map (under 0) (mark_trace env c0) ++ map (under 1) (mark_trace env c1)
       ++ [here (MarkNode b)]).
Proof.
  intros env t res c0 c1. split.
  - apply mark_dirty_dirty.
  - destruct (mark_trace_ends_with_own env c0) as [tr0 E0].
    destruct (mark_trace_ends_with_own env c1) as [tr1 E1].
    exists tr0, tr1. repeat split; auto.
    apply mark_dirty_clean.
Qed.

(** C6, as the code has it.  The marking pass of a call compares every
    terminal of the tree, once each and in order, when the root is a
    terminal or its [dirty] flag is clear, which is the case on every call
    that follows an earlier call; when the root is an operator node with
    its flag still set, as the constructor leaves it, the pass stops at the
    root and compares no terminal. *)
Theorem marking_compares_terminals : forall h,
  reachable h ->
  visited is_compare (mark_trace (vars h) (tree h))
  = (if is_terminal (tree h) || negb (expr_dirty (tree h))
     then terminal_paths (tree h) else [])
  /\ expr_dirty (reevaluate_tree (vars h) (tree h)) = false.
Proof.
  intros h R. pose proof (reachable_settled h R) as S. split.
  - destruct (tree h) as [d res v | t d res c0 c1] eqn:E; [reflexivity|].
    destruct d; [reflexivity|]. simpl orb.
    destruct S as [S | [env0 S]]; [destruct S; discriminate|].
    apply mark_clean_compares_all. eapply in_sync_every_clean, S.
  - destruct (reevaluate_settled (vars h) _ S) as [_ I].
    destruct (reevaluate_tree (vars h) (tree h)); apply I.
Qed.

Lemma marking_compares_terminals_witness :
  reachable ui_host_changed /\
  visited is_compare (mark_trace (vars ui_host_changed) (tree ui_host_changed))
  = [[0; 0]; [0; 1]; [1]]%nat
  /\ expr_dirty (reevaluate_tree (vars ui_host_changed) (tree ui_host_changed))
     = false.
Proof.
  split.
  - apply ui_host_changed_reachable.
  - apply (marking_compares_terminals ui_host_changed).
    apply ui_host_changed_reachable.
Defined.

(** C6, as stated, fails on the first call: the tree of [ui_element] has
    three terminals and the marking pass of its first [reevaluate] compares
    none of them. *)
Lemma first_marking_compares_nothing :
  reachable ui_host_built /\
  terminal_paths (tree ui_host_built) = [[0; 0]; [0; 1]; [1]]%nat /\
  visited is_compare (mark_trace (vars ui_host_built) (tree ui_host_built)) = [] /\
  visited is_compare (reevaluate_trace (vars ui_host_built) (tree ui_host_built))
  = [].
Proof.
  split; [apply ui_host_built_reachable|].
  vm_compute. auto.
Qed.

(** * Propagation of a change *)

(** C4.  The tree of [ui_element] once evaluated with [i1 = 1], [i2 = 11],
    [i3 = 111] (a second [render] leaves it as it is); after [i2 += 5],
    which makes [i2] 16, [reevaluate] returns 128; in that call the marking
    of the terminals of [i1] and [i3] answers [false], that of [i2] answers
    [true], and the evaluation of the root applies its operator: no
    operator node returns its cached result. *)
Theorem single_change_propagation : forall g1 g2 g3 g4 g5,
  let t1 := reevaluate_tree ui_store (ui_expr g1 g2 g3 g4 g5) in
  let tr := reevaluate_trace ui_store_changed t1 in
  reevaluate_tree ui_store t1 = t1 /\
  ui_store_changed i2 = 16 /\
  src_at t1 [0; 0]%nat = Some i1 /\
  src_at t1 [0; 1]%nat = Some i2 /\
  src_at t1 [1]%nat = Some i3 /\
  reevaluate_value ui_store_changed t1 = 128 /\
  visited (is_compare_with false) tr = [[0; 0]; [1]]%nat /\
  visited (is_compare_with true) tr = [[0; 1]]%nat /\
  visited is_recompute tr = [[0]; []]%nat /\
  visited is_cache_hit tr = [].
Proof. intros. vm_compute. repeat split. Qed.

(** C5.  The tree [(a + b) + (c + d)], evaluated once; then [a] alone is
    given another value ([c] and [d] are other variables than [a]).  The
    next [reevaluate] applies the operator of the left subtree and then the
    root's, and never the right subtree's, which returns its cached result
    without its terminals being refreshed: the value returned is the new
    sum of the left subtree added to the [result] the right subtree held,
    the left subtree and the root hold their new results, and the right
    subtree is left as the first call left it. *)
Theorem clean_subtree_skipped : forall env a b c d ga gb gc gd gl gr g v,
  a <> c -> a <> d -> v <> env a ->
  let t1 := reevaluate_tree env (pair_of_sums a b c d ga gb gc gd gl gr g) in
  let env' := update env a v in
  let tr := reevaluate_trace env' t1 in
  let right1 :=
    Binary plus false (int_wrap (env c + env d))
      (Terminal false gc {| src := c; cache := env c |})
      (Terminal false gd {| src := d; cache := env d |}) in
  visited is_recompute tr = [[0]; []]%nat /\
  visited is_cache_hit tr = [[1]]%nat /\
  visited is_refresh tr = [[0; 0]; [0; 1]]%nat /\
  t1 =
    Binary plus false (int_wrap (int_wrap (env a + env b) + int_wrap (env c + env d)))
      (Binary plus false (int_wrap (env a + env b))
         (Terminal false ga {| src := a; cache := env a |})
         (Terminal false gb {| src := b; cache := env b |}))
      right1 /\
  reevaluate_value env' t1
  = int_wrap (int_wrap (v + env' b) + int_wrap (env c + env d)) /\
  reevaluate_tree env' t1 =
    Binary plus false (int_wrap (int_wrap (v + env' b) + int_wrap (env c + env d)))
      (Binary plus false (int_wrap (v + env' b))
         (Terminal false ga {| src := a; cache := v |})
         (Terminal false gb {| src := b; cache := env' b |}))
      right1.
Proof.
  intros env a b c d ga gb gc gd gl gr g v Hc Hd Hv t1 env' tr right1.
  assert (Eaa : env' a = v).
  { unfold env', update. now rewrite String.eqb_refl. }
  assert (Ea : Z.eqb (env a) (env' a) = false).
  { rewrite Eaa. apply Z.eqb_neq. congruence. }
  assert (Ec : Z.eqb (env c) (env' c) = true).
  { unfold env', update. apply String.eqb_neq in Hc. rewrite Hc. apply Z.eqb_refl. }
  assert (Ed : Z.eqb (env d) (env' d) = true).
  { unfold env', update. apply String.eqb_neq in Hd. rewrite Hd. apply Z.eqb_refl. }
  assert (E1 : t1 =
    Binary plus false (int_wrap (int_wrap (env a + env b) + int_wrap (env c + env d)))
      (Binary plus false (int_wrap (env a + env b))
         (Terminal false ga {| src := a; cache := env a |})
         (Terminal false gb {| src := b; cache := env b |}))
      right1) by reflexivity.
  subst tr. rewrite E1. clearbody t1 env'. clear E1 t1.
  unfold reevaluate_trace, reevaluate_value, reevaluate_tree, reevaluate, right1.
  cbn -[int_wrap Z.eqb Z.add].
  rewrite Ea, Ec, Ed, Eaa.
  destruct (Z.eqb (env b) (env' b)); cbn -[int_wrap Z.add]; repeat split.
Qed.

Lemma clean_subtree_skipped_witness :
  let env : store := fun _ => 7 in
  let t1 := reevaluate_tree env
              (pair_of_sums "a"%string "b"%string "c"%string "d"%string
                 0 0 0 0 0 0 0) in
  let env' := update env "a"%string 8 in
  let tr := reevaluate_trace env' t1 in
  ("a"%string <> "c"%string /\ "a"%string <> "d"%string /\ 8 <> env "a"%string) /\
  visited is_recompute tr = [[0]; []]%nat /\
  visited is_cache_hit tr = [[1]]%nat /\
  visited is_refresh tr = [[0; 0]; [0; 1]]%nat /\
  reevaluate_value env' t1 = 29.
Proof.
  intros env t1 env' tr.
  assert (Hc : "a"%string <> "c"%string) by discriminate.
  assert (Hd : "a"%string <> "d"%string) by discriminate.
  assert (Hv : 8 <> env "a"%string) by discriminate.
  split; [auto|].
  destruct (clean_subtree_skipped env "a"%string "b"%string "c"%string "d"%string
              0 0 0 0 0 0 0 8 Hc Hd Hv) as (A & B & C & _ & V & _).
  split; [exact A | split; [exact B | split; [exact C | exact V]]].
Defined.

(** * The cache invariant *)

Section CacheInvariant.

Variable env : store.

(** Evaluating a node a second time returns what the first evaluation
    returned. *)
Lemma eval_value_eval : forall e,
  eval_value env (eval_tree env e) = eval_value env e.
Proof.
  destruct e as [d res v | t [|] res c0 c1]; try reflexivity.
  rewrite eval_tree_dirty, eval_value_dirty. reflexivity.
Qed.

(** A node whose marking answers [false] evaluates to the same value
    before and after the marking. *)
Lemma eval_value_mark : forall e,
  mark_flag env e = false ->
  eval_value env (mark_tree env e) = eval_value env e.
Proof.
  destruct e as [d res v | t [|] res c0 c1]; try reflexivity.
  rewrite mark_flag_clean, mark_tree_clean. intros ->. reflexivity.
Qed.

Lemma in_sync_cache_valid : forall e, in_sync env e -> cache_valid env e = true.
Proof.
  induction e as [d res v | t d res c0 IH0 c1 IH1]; [reflexivity|].
  intros (-> & Hres & H0 & H1). simpl.
  destruct (eval_ready env c0 (in_sync_ready env c0 H0)) as [V0 _].
  destruct (eval_ready env c1 (in_sync_ready env c1 H1)) as [V1 _].
  rewrite V0, V1, IH0, IH1 by assumption.
  simpl in Hres. rewrite <- Hres, Z.eqb_refl. reflexivity.
Qed.

Lemma ready_cache_valid : forall e, ready env e -> cache_valid env e = true.
Proof.
  induction e as [d res v | t d res c0 IH0 c1 IH1]; [reflexivity|].
  destruct d.
  - intros [R0 R1]. simpl. now rewrite IH0, IH1.
  - intros H. apply in_sync_cache_valid, H.
Qed.

Lemma mark_cache_valid : forall e,
  cache_valid env e = true -> cache_valid env (mark_tree env e) = true.
Proof.
  induction e as [d res v | t d res c0 IH0 c1 IH1]; [reflexivity|].
  destruct d; [trivial|].
  rewrite mark_tree_clean. simpl. intros H.
  apply andb_true_iff in H. destruct H as [H H1].
  apply andb_true_iff in H. destruct H as [Hres H0].
  rewrite IH0, IH1 by assumption.
  destruct (mark_flag env c0) eqn:F0; [reflexivity|].
  destruct (mark_flag env c1) eqn:F1; [reflexivity|].
  rewrite !eval_value_mark by assumption. rewrite Hres. reflexivity.
Qed.

Lemma eval_cache_valid : forall e,
  cache_valid env e = true -> cache_valid env (eval_tree env e) = true.
Proof.
  induction e as [d res v | t d res c0 IH0 c1 IH1]; [reflexivity|].
  destruct d; [|trivial].
  rewrite eval_tree_dirty. simpl. intros H.
  apply andb_true_iff in H. destruct H as [H0 H1].
  rewrite IH0, IH1, !eval_value_eval, Z.eqb_refl by assumption.
  reflexivity.
Qed.

End CacheInvariant.

(** C2, as the code has it.  Right after the marking pass of a call, and
    right after its evaluation pass, every operator node of the tree whose
    [dirty] flag is clear holds as [result] the operator applied to what
    evaluating its children returns, in the variables of that call; and
    either pass keeps that property on any tree that has it, the variables
    being the same. *)
Theorem cache_valid_after_each_pass : forall h e,
  reachable h ->
  cache_valid (vars h) e = true ->
  cache_valid (vars h) (mark_tree (vars h) (tree h)) = true /\
  cache_valid (vars h) (reevaluate_tree (vars h) (tree h)) = true /\
  cache_valid (vars h) (mark_tree (vars h) e) = true /\
  cache_valid (vars h) (eval_tree (vars h) e) = true.
Proof.
  intros h e R V.
  pose proof (settled_mark_ready (vars h) _ (reachable_settled h R)) as M.
  split; [apply ready_cache_valid, M|]. split.
  - rewrite reevaluate_tree_eq. apply eval_cache_valid, ready_cache_valid, M.
  - split; [apply mark_cache_valid, V | apply eval_cache_valid, V].
Qed.

Lemma cache_valid_after_each_pass_witness :
  let h := ui_host_changed in
  let e := mark_tree (vars h) (tree h) in
  (reachable h /\ cache_valid (vars h) e = true) /\
  cache_valid (vars h) (mark_tree (vars h) (tree h)) = true /\
  cache_valid (vars h) (reevaluate_tree (vars h) (tree h)) = true /\
  cache_valid (vars h) (mark_tree (vars h) e) = true /\
  cache_valid (vars h) (eval_tree (vars h) e) = true.
Proof.
  intros h e.
  assert (V : cache_valid (vars h) e = true) by (vm_compute; reflexivity).
  split; [split; [apply ui_host_changed_reachable | exact V]|].
  exact (cache_valid_after_each_pass h e ui_host_changed_reachable V).
Defined.

(** C2, as stated, fails once a variable has been mutated and before the
    next marking pass: after [render] and [i2 += 5] in [_tmain], the node
    [in(i1) + in(i2)] has its [dirty] flag clear and [result] 12, while
    evaluating its children returns 1 and 16, whose sum is 17. *)
Lemma cache_stale_after_mutation :
  reachable ui_host_changed /\
  cache_valid (vars ui_host_changed) (tree ui_host_changed) = false /\
  match tree ui_host_changed with
  | Binary _ _ _ (Binary t d res c0 c1) _ =>
      d = false /\ res = 12 /\
      eval_value (vars ui_host_changed) c0 = 1 /\
      eval_value (vars ui_host_changed) c1 = 16 /\
      default_eval t 1 16 = 17
  | _ => False
  end.
Proof.
  split; [apply ui_host_changed_reachable|].
  vm_compute. repeat split.
Qed.

(** * What the passes leave alone *)

Section Structure.

Variable env : store.

Lemma skeleton_of_mark : forall e, skeleton_of (mark_tree env e) = skeleton_of e.
Proof.
  induction e as [d res v | t d res c0 IH0 c1 IH1]; [reflexivity|].
  destruct d; [reflexivity|].
  rewrite mark_tree_clean. simpl. now rewrite IH0, IH1.
Qed.

Lemma skeleton_of_eval : forall e, skeleton_of (eval_tree env e) = skeleton_of e.
Proof.
  induction e as [d res v | t d res c0 IH0 c1 IH1]; [reflexivity|].
  destruct d; [|reflexivity].
  rewrite eval_tree_dirty. simpl. now rewrite IH0, IH1.
Qed.

Lemma eval_tree_clean_root : forall e, expr_dirty (eval_tree env e) = false.
Proof.
  destruct e as [d res v | t [|] res c0 c1]; try reflexivity.
  now rewrite eval_tree_dirty.
Qed.

Lemma sources_mark : forall e, sources (mark_tree env e) = sources e.
Proof.
  induction e as [d res v | t d res c0 IH0 c1 IH1]; [reflexivity|].
  destruct d; [reflexivity|].
  rewrite mark_tree_clean. simpl. now rewrite IH0, IH1.
Qed.

Lemma forget_flags_mark : forall e,
  forget_flags (mark_tree env e) = forget_flags e.
Proof.
  induction e as [d res v | t d res c0 IH0 c1 IH1]; [reflexivity|].
  destruct d; [reflexivity|].
  rewrite mark_tree_clean. simpl. now rewrite IH0, IH1.
Qed.

Lemma dirty_operators_mark : forall e,
  incl (dirty_operators e) (dirty_operators (mark_tree env e)).
Proof.
  induction e as [d res v | t d res c0 IH0 c1 IH1]; [apply incl_refl|].
  destruct d; [apply incl_refl|].
  rewrite mark_tree_clean. simpl. rewrite app_nil_r.
  apply incl_app.
  - apply incl_appl, incl_map, IH0.
  - apply incl_appr, incl_appl, incl_map, IH1.
Qed.

Lemma mark_dirty_twice : forall e,
  mark_flag env (mark_tree env e) = mark_flag env e /\
  mark_tree env (mark_tree env e) = mark_tree env e.
Proof.
  induction e as [d res v | t d res c0 IH0 c1 IH1].
  - split; reflexivity.
  - destruct d; [split; reflexivity|].
    destruct IH0 as [F0 T0], IH1 as [F1 T1].
    rewrite mark_tree_clean, mark_flag_clean.
    destruct (mark_flag env c0 || mark_flag env c1) eqn:B.
    + split; reflexivity.
    + rewrite mark_flag_clean, mark_tree_clean, F0, F1, T0, T1, B.
      split; reflexivity.
Qed.

End Structure.

(** X1.  Neither pass changes the operators of the tree nor the variables its
    terminals refer to, whatever state the tree is in, and [reevaluate]
    always hands back a tree whose root has its [dirty] flag clear. *)
Theorem reevaluate_keeps_skeleton : forall env e,
  skeleton_of (reevaluate_tree env e) = skeleton_of e /\
  expr_dirty (reevaluate_tree env e) = false.
Proof.
  intros env e. rewrite reevaluate_tree_eq. split.
  - now rewrite skeleton_of_eval, skeleton_of_mark.
  - apply eval_tree_clean_root.
Qed.

(** X2.  The marking pass writes [dirty] flags and nothing else (caches and
    results are as they were), and it never clears the flag of an operator
    node. *)
Theorem marking_writes_flags_only : forall env e,
  forget_flags (mark_tree env e) = forget_flags e /\
  incl (dirty_operators e) (dirty_operators (mark_tree env e)).
Proof.
  intros env e. split; [apply forget_flags_mark | apply dirty_operators_mark].
Qed.

(** X3.  Marking a tree a second time in the same store, without an evaluation
    in between, gives the same answer and leaves the tree as the first
    marking left it. *)
Theorem marking_idempotent : forall env e,
  mark_flag env (mark_tree env e) = mark_flag env e /\
  mark_tree env (mark_tree env e) = mark_tree env e.
Proof. intros env e. apply mark_dirty_twice. Qed.

(** * Only the referenced variables are read *)

Lemma mark_dirty_agree : forall env env' e,
  (forall x, In x (sources e) -> env x = env' x) ->
  mark_dirty env e = mark_dirty env' e.
Proof.
  intros env env'.
  induction e as [d res v | t d res c0 IH0 c1 IH1]; intros H.
  - rewrite !mark_dirty_terminal. simpl. rewrite (H (src v)); [reflexivity|].
    simpl. auto.
  - destruct d; [reflexivity|].
    rewrite !mark_dirty_clean. unfold mark_flag, mark_tree, mark_trace.
    rewrite IH0, IH1; [reflexivity| |];
      intros x Hx; apply H; simpl; apply in_or_app; auto.
Qed.

Lemma eval_cache_agree : forall env env' e,
  (forall x, In x (sources e) -> env x = env' x) ->
  eval_cache env e = eval_cache env' e.
Proof.
  intros env env'.
  induction e as [d res v | t d res c0 IH0 c1 IH1]; intros H.
  - rewrite !eval_cache_terminal. rewrite (H (src v)); [reflexivity|].
    simpl. auto.
  - destruct d; [|reflexivity].
    rewrite !eval_cache_dirty. unfold eval_value, eval_tree, eval_trace.
    rewrite IH0, IH1; [reflexivity| |];
      intros x Hx; apply H; simpl; apply in_or_app; auto.
Qed.

Lemma reevaluate_agree : forall env env' e,
  (forall x, In x (sources e) -> env x = env' x) ->
  reevaluate env e = reevaluate env' e.
Proof.
  intros env env' e H. rewrite !reevaluate_eq.
  unfold eval_value, eval_tree, eval_trace, mark_tree, mark_trace.
  rewrite (mark_dirty_agree env env' e H).
  rewrite (eval_cache_agree env env'); [reflexivity|].
  intros x Hx. apply H.
  change (snd (fst (mark_dirty env' e))) with (mark_tree env' e) in Hx.
  now rewrite sources_mark in Hx.
Qed.

(** X4.  Two stores that agree on the variables the terminals of a tree refer
    to give the same call of [reevaluate]: the same value, the same updated
    tree and the same visits.  A mutation of any other variable goes
    unnoticed. *)
Theorem reevaluate_reads_sources_only : forall env env' e,
  (forall x, In x (sources e) -> env x = env' x) ->
  reevaluate env e = reevaluate env' e.
Proof. intros env env' e H. apply reevaluate_agree, H. Qed.

Lemma reevaluate_reads_sources_only_witness :
  let env' := update ui_store "other"%string 5 in
  let e := ui_expr 0 0 0 0 0 in
  reevaluate ui_store e = reevaluate env' e.
Proof.
  intros env' e.
  apply (reevaluate_reads_sources_only ui_store env' e).
  intros x Hx. simpl in Hx.
  destruct Hx as [<- | [<- | [<- | []]]]; reflexivity.
Defined.

(** * What a call recomputes *)

Section Staleness.

Variable env : store.

Lemma stale_flag_stale : forall e, stale env (flag_stale env e) = stale env e.
Proof.
  induction e as [d res v | t d res c0 IH0 c1 IH1]; [reflexivity|].
  simpl. now rewrite IH0, IH1.
Qed.

Lemma mark_every_clean : forall e,
  every_clean e = true ->
  mark_flag env e = stale env e /\ mark_tree env e = flag_stale env e.
Proof.
  induction e as [d res v | t d res c0 IH0 c1 IH1]; intros H.
  - split; reflexivity.
  - simpl in H.
    apply andb_true_iff in H. destruct H as [H H1].
    apply andb_true_iff in H. destruct H as [Hd H0].
    apply negb_true_iff in Hd. subst d.
    destruct (IH0 H0) as [F0 T0], (IH1 H1) as [F1 T1].
    rewrite mark_flag_clean, mark_tree_clean, F0, F1, T0, T1.
    split; reflexivity.
Qed.

Lemma not_stale_no_stale_operators : forall e,
  stale env e = false -> stale_operators env e = [].
Proof.
  induction e as [d res v | t d res c0 IH0 c1 IH1]; [reflexivity|].
  simpl. intros H. rewrite H.
  apply orb_false_iff in H. destruct H as [H0 H1].
  now rewrite IH0, IH1.
Qed.

Lemma eval_flag_stale_visits : forall e,
  visited is_recompute (eval_trace env (flag_stale env e)) = stale_operators env e /\
  visited is_cache_hit (eval_trace env (flag_stale env e)) = kept_operators env e /\
  visited is_refresh (eval_trace env (flag_stale env e)) = reread_terminals env e.
Proof.
  induction e as [d res v | t d res c0 IH0 c1 IH1].
  - repeat split.
  - destruct IH0 as (A0 & B0 & C0), IH1 as (A1 & B1 & C1).
    simpl. destruct (stale env c0 || stale env c1) eqn:S.
    + rewrite eval_trace_dirty, !visited_app, !visited_under.
      rewrite A0, A1, B0, B1, C0, C1, !visited_here. simpl.
      now rewrite !app_nil_r.
    + apply orb_false_iff in S. destruct S as [S0 S1].
      rewrite !not_stale_no_stale_operators by assumption.
      repeat split.
Qed.

Lemma in_sync_not_stale : forall e, in_sync env e -> stale env e = false.
Proof.
  induction e as [d res v | t d res c0 IH0 c1 IH1].
  - intros [_ H]. simpl. rewrite H, Z.eqb_refl. reflexivity.
  - intros (_ & _ & H0 & H1). simpl. now rewrite IH0, IH1.
Qed.

Lemma in_sync_flag_stale : forall e, in_sync env e -> flag_stale env e = e.
Proof.
  induction e as [d res v | t d res c0 IH0 c1 IH1].
  - intros [-> H]. simpl. rewrite H, Z.eqb_refl. reflexivity.
  - intros (-> & Hres & H0 & H1).
    simpl. rewrite IH0, IH1 by assumption.
    now rewrite !in_sync_not_stale.
Qed.

Lemma in_sync_eval_tree : forall e, in_sync env e -> eval_tree env e = e.
Proof.
  destruct e as [d res [x c] | t d res c0 c1].
  - intros [-> H]. simpl in H. subst c. reflexivity.
  - intros (-> & _). reflexivity.
Qed.

Lemma in_sync_terminal_caches : forall e,
  in_sync env e -> terminal_caches e = map env (sources e).
Proof.
  induction e as [d res v | t d res c0 IH0 c1 IH1].
  - intros [_ H]. simpl. now rewrite H.
  - intros (_ & _ & H0 & H1). simpl. now rewrite map_app, IH0, IH1.
Qed.

End Staleness.

(** X5.  On a tree without a dirty flag the marking pass answers whether some
    terminal's cache differs from its variable, and leaves on every node,
    terminal or operator, exactly the flag that says so for its subtree. *)
Theorem marking_flags_stale_subtrees : forall env e,
  every_clean e = true ->
  mark_flag env e = stale env e /\ mark_tree env e = flag_stale env e.
Proof. intros env e. apply mark_every_clean. Qed.

Lemma marking_flags_stale_subtrees_witness :
  let e := tree ui_host_changed in
  every_clean e = true /\
  mark_flag ui_store_changed e = true /\
  mark_tree ui_store_changed e = flag_stale ui_store_changed e.
Proof.
  intros e.
  assert (H : every_clean e = true) by (vm_compute; reflexivity).
  split; [exact H|].
  exact (marking_flags_stale_subtrees ui_store_changed e H).
Defined.

Lemma reevaluate_clean_visits : forall env e,
  every_clean e = true ->
  visited is_recompute (reevaluate_trace env e) = stale_operators env e /\
  visited is_cache_hit (reevaluate_trace env e) = kept_operators env e /\
  visited is_refresh (reevaluate_trace env e) = reread_terminals env e.
Proof.
  intros env e H.
  destruct (mark_every_clean env e H) as [_ T].
  destruct (eval_flag_stale_visits env e) as (A & B & C).
  rewrite reevaluate_trace_eq, T, !visited_app, A, B, C.
  rewrite !visited_mark_trace_nil by reflexivity.
  repeat split.
Qed.

Lemma clean_not_stale_flag_stale : forall env e,
  every_clean e = true -> stale env e = false -> flag_stale env e = e.
Proof.
  intros env.
  induction e as [d res v | t d res c0 IH0 c1 IH1]; simpl; intros H S.
  - apply negb_true_iff in H. subst d. now rewrite S.
  - apply andb_true_iff in H. destruct H as [H H1].
    apply andb_true_iff in H. destruct H as [Hd H0].
    apply negb_true_iff in Hd. subst d. rewrite S.
    apply orb_false_iff in S. destruct S as [S0 S1].
    now rewrite IH0, IH1.
Qed.

Lemma eval_flag_stale_result : forall env e,
  every_clean e = true ->
  eval_value env (flag_stale env e) = refreshed_value env e /\
  eval_tree env (flag_stale env e) = refreshed_tree env e.
Proof.
  intros env.
  induction e as [d res v | t d res c0 IH0 c1 IH1]; intros H.
  - split; reflexivity.
  - simpl in H.
    apply andb_true_iff in H. destruct H as [H H1].
    apply andb_true_iff in H. destruct H as [Hd H0].
    apply negb_true_iff in Hd. subst d.
    destruct (IH0 H0) as [V0 T0], (IH1 H1) as [V1 T1].
    simpl. destruct (stale env c0 || stale env c1) eqn:S.
    + rewrite eval_value_dirty, eval_tree_dirty, V0, V1, T0, T1.
      split; reflexivity.
    + apply orb_false_iff in S. destruct S as [S0 S1].
      rewrite !clean_not_stale_flag_stale by assumption.
      split; reflexivity.
Qed.

(** X6.  A call of [reevaluate] on a tree without a dirty flag applies the
    operator of exactly the nodes that have a stale terminal below them,
    returns the cached result of exactly the topmost nodes that have none,
    and rereads exactly the terminals that are children of a recomputed
    node (or the terminal the tree consists of): the value it returns is
    built from the variables of the reread terminals, the operators of the
    recomputed nodes and the [result] fields of the nodes left alone, and
    the tree it leaves has these values written where they were computed
    and is unchanged elsewhere. *)
Theorem reevaluate_recomputes_stale_only : forall env e,
  every_clean e = true ->
  visited is_recompute (reevaluate_trace env e) = stale_operators env e /\
  visited is_cache_hit (reevaluate_trace env e) = kept_operators env e /\
  visited is_refresh (reevaluate_trace env e) = reread_terminals env e /\
  reevaluate_value env e = refreshed_value env e /\
  reevaluate_tree env e = refreshed_tree env e.
Proof.
  intros env e H.
  destruct (reevaluate_clean_visits env e H) as (A & B & C).
  destruct (mark_every_clean env e H) as [_ T].
  destruct (eval_flag_stale_result env e H) as [V R].
  rewrite reevaluate_value_eq, reevaluate_tree_eq, T.
  repeat split; assumption.
Qed.

Lemma reevaluate_recomputes_stale_only_witness :
  let e := tree ui_host_changed in
  every_clean e = true /\
  visited is_recompute (reevaluate_trace ui_store_changed e) = [[0]; []]%nat /\
  visited is_cache_hit (reevaluate_trace ui_store_changed e) = [] /\
  visited is_refresh (reevaluate_trace ui_store_changed e)
  = [[0; 0]; [0; 1]; [1]]%nat /\
  reevaluate_value ui_store_changed e = 128.
Proof.
  intros e.
  assert (H : every_clean e = true) by (vm_compute; reflexivity).
  split; [exact H|].
  destruct (reevaluate_recomputes_stale_only ui_store_changed e H)
    as (A & B & C & V & _).
  split; [exact A | split; [exact B | split; [exact C | exact V]]].
Defined.

Lemma sources_eval : forall env e, sources (eval_tree env e) = sources e.
Proof.
  intros env.
  induction e as [d res v | t d res c0 IH0 c1 IH1]; [reflexivity|].
  destruct d; [|reflexivity].
  rewrite eval_tree_dirty. simpl. now rewrite IH0, IH1.
Qed.

(** X7.  After any call, every terminal's cache holds the value its variable
    had at the call and every operator node's [result] is the value of its
    subtree in those variables, all flags being clear. *)
Theorem reevaluate_leaves_tree_in_sync : forall h,
  reachable h ->
  in_sync (vars h) (reevaluate_tree (vars h) (tree h)) /\
  terminal_caches (reevaluate_tree (vars h) (tree h))
  = map (vars h) (sources (tree h)).
Proof.
  intros h R.
  destruct (reevaluate_settled (vars h) _ (reachable_settled h R)) as [_ S].
  split; [exact S|].
  rewrite (in_sync_terminal_caches (vars h) _ S).
  now rewrite reevaluate_tree_eq, sources_eval, sources_mark.
Qed.

Lemma reevaluate_leaves_tree_in_sync_witness :
  reachable ui_host_changed /\
  terminal_caches (reevaluate_tree (vars ui_host_changed) (tree ui_host_changed))
  = [1; 16; 111].
Proof.
  split; [apply ui_host_changed_reachable|].
  apply (reevaluate_leaves_tree_in_sync ui_host_changed).
  apply ui_host_changed_reachable.
Defined.

(** * Detecting a change *)

Lemma in_sync_stale_changed : forall env0 env e,
  in_sync env0 e ->
  stale env e = existsb (fun x => negb (Z.eqb (env0 x) (env x))) (sources e).
Proof.
  intros env0 env.
  induction e as [d res v | t d res c0 IH0 c1 IH1].
  - intros [_ H]. simpl. rewrite H, orb_false_r. reflexivity.
  - intros (_ & _ & H0 & H1). simpl. now rewrite existsb_app, IH0, IH1.
Qed.

Lemma unchanged_agree : forall (env0 env : store) (l : list loc),
  existsb (fun x => negb (Z.eqb (env0 x) (env x))) l = false ->
  forall x, In x l -> env x = env0 x.
Proof.
  intros env0 env l H x Hx.
  destruct (Z.eqb (env0 x) (env x)) eqn:E.
  - apply Z.eqb_eq in E. congruence.
  - assert (existsb (fun x => negb (Z.eqb (env0 x) (env x))) l = true).
    { apply existsb_exists. exists x. split; [exact Hx|]. now rewrite E. }
    congruence.
Qed.

Lemma sources_reevaluate : forall env e,
  sources (reevaluate_tree env e) = sources e.
Proof. intros. now rewrite reevaluate_tree_eq, sources_eval, sources_mark. Qed.

(** X8.  After a call, the marking pass of the next call answers [true] exactly
    when some variable a terminal refers to has a value other than the one
    it had at the earlier call. *)
Theorem marking_detects_changes : forall h env,
  reachable h ->
  mark_flag env (reevaluate_tree (vars h) (tree h))
  = existsb (fun x => negb (Z.eqb (vars h x) (env x))) (sources (tree h)).
Proof.
  intros h env R.
  destruct (reevaluate_settled (vars h) _ (reachable_settled h R)) as [_ S].
  destruct (mark_every_clean env _ (in_sync_every_clean _ _ S)) as [F _].
  rewrite F, (in_sync_stale_changed (vars h) env _ S), sources_reevaluate.
  reflexivity.
Qed.

Lemma marking_detects_changes_witness :
  reachable ui_host_built /\
  mark_flag ui_store_changed (reevaluate_tree (vars ui_host_built) (tree ui_host_built))
  = true.
Proof.
  split; [apply ui_host_built_reachable|].
  apply (marking_detects_changes ui_host_built ui_store_changed).
  apply ui_host_built_reachable.
Defined.

(** X9.  After a call, a further call made while every variable a terminal
    refers to has the value it had at the earlier call returns the same
    value again, applies no operator and leaves the tree exactly as it
    was. *)
Theorem unchanged_call_recomputes_nothing : forall h env,
  reachable h ->
  existsb (fun x => negb (Z.eqb (vars h x) (env x))) (sources (tree h)) = false ->
  reevaluate_value env (reevaluate_tree (vars h) (tree h))
  = reevaluate_value (vars h) (tree h) /\
  reevaluate_tree env (reevaluate_tree (vars h) (tree h))
  = reevaluate_tree (vars h) (tree h) /\
  visited is_recompute (reevaluate_trace env (reevaluate_tree (vars h) (tree h)))
  = [].
Proof.
  intros h env R U.
  destruct (reevaluate_settled (vars h) _ (reachable_settled h R)) as [V S].
  set (t1 := reevaluate_tree (vars h) (tree h)) in *.
  assert (A : reevaluate env t1 = reevaluate (vars h) t1).
  { apply reevaluate_agree. intros x Hx. unfold t1 in Hx.
    rewrite sources_reevaluate in Hx.
    eapply unchanged_agree; eauto. }
  unfold reevaluate_value at 1, reevaluate_tree at 1, reevaluate_trace.
  rewrite A.
  change (reevaluate_value (vars h) t1 = reevaluate_value (vars h) (tree h) /\
          reevaluate_tree (vars h) t1 = t1 /\
          visited is_recompute (reevaluate_trace (vars h) t1) = []).
  pose proof (in_sync_every_clean _ _ S) as C.
  destruct (mark_every_clean (vars h) t1 C) as [_ T].
  destruct (reevaluate_clean_visits (vars h) t1 C) as (Rc & _ & _).
  repeat split.
  - destruct (reevaluate_settled (vars h) t1) as [V' _].
    { right. exists (vars h). exact S. }
    rewrite V', V. unfold t1.
    now rewrite reevaluate_tree_eq, direct_eval_eval, direct_eval_mark.
  - rewrite reevaluate_tree_eq, T, (in_sync_flag_stale _ _ S).
    apply in_sync_eval_tree, S.
  - rewrite Rc. apply not_stale_no_stale_operators, in_sync_not_stale, S.
Qed.

Lemma unchanged_call_recomputes_nothing_witness :
  let h := ui_host_changed in
  let env := update (vars h) "other"%string 9 in
  (reachable h /\
   existsb (fun x => negb (Z.eqb (vars h x) (env x))) (sources (tree h)) = false) /\
  reevaluate_value env (reevaluate_tree (vars h) (tree h)) = 128 /\
  visited is_recompute (reevaluate_trace env (reevaluate_tree (vars h) (tree h)))
  = [].
Proof.
  intros h env.
  assert (U : existsb (fun x => negb (Z.eqb (vars h x) (env x)))
                (sources (tree h)) = false) by (vm_compute; reflexivity).
  split; [split; [apply ui_host_changed_reachable | exact U]|].
  destruct (unchanged_call_recomputes_nothing h env ui_host_changed_reachable U)
    as (V & _ & Rc).
  split; [rewrite V; vm_compute; reflexivity | exact Rc].
Defined.

(** * No node is visited twice *)

Section Subsequences.

Context {A B : Type}.

Lemma subseq_refl : forall l : list A, subseq l l.
Proof. induction l; constructor; assumption. Qed.

Lemma subseq_nil_l : forall l : list A, subseq [] l.
Proof. induction l; constructor; assumption. Qed.

Lemma subseq_app : forall l1 l1' l2 l2' : list A,
  subseq l1 l1' -> subseq l2 l2' -> subseq (l1 ++ l2) (l1' ++ l2').
Proof.
  intros l1 l1' l2 l2' H1 H2.
  induction H1; simpl; try constructor; assumption.
Qed.

Lemma subseq_map : forall (f : A -> B) l l',
  subseq l l' -> subseq (map f l) (map f l').
Proof. intros f l l' H. induction H; simpl; constructor; assumption. Qed.

Lemma subseq_In : forall (l l' : list A) x, subseq l l' -> In x l -> In x l'.
Proof.
  intros l l' x H. induction H; simpl; intros Hx; auto.
  destruct Hx; auto.
Qed.

Lemma subseq_NoDup : forall l l' : list A, subseq l l' -> NoDup l' -> NoDup l.
Proof.
  intros l l' H. induction H; intros N.
  - constructor.
  - inversion N; auto.
  - inversion N as [|? ? Hx N']; subst. constructor; auto.
    intros Hin. apply Hx. eapply subseq_In; eauto.
Qed.

End Subsequences.

Lemma NoDup_map_cons : forall (i : nat) (l : list path),
  NoDup l -> NoDup (map (cons i) l).
Proof.
  intros i l N. induction N as [|p l Hp N IH]; simpl; constructor; [|exact IH].
  intros H. apply in_map_iff in H. destruct H as (q & E & Hq).
  inversion E; subst. auto.
Qed.

Lemma NoDup_append : forall (l l' : list path),
  NoDup l -> NoDup l' -> (forall p, In p l -> ~ In p l') -> NoDup (l ++ l').
Proof.
  intros l l' N N' D. induction N as [|p l Hp N IH]; simpl; [exact N'|].
  constructor.
  - intros H. apply in_app_or in H. destruct H as [H | H]; [auto|].
    apply (D p); simpl; auto.
  - apply IH. intros q Hq. apply D. simpl. auto.
Qed.

Lemma NoDup_children : forall (l0 l1 : list path) (rest : list path),
  NoDup l0 -> NoDup l1 -> rest = [] \/ rest = [[]] ->
  NoDup (map (cons 0%nat) l0 ++ map (cons 1%nat) l1 ++ rest).
Proof.
  intros l0 l1 rest N0 N1 Hr.
  assert (Nrest : NoDup rest).
  { destruct Hr as [-> | ->]; repeat constructor. simpl. tauto. }
  assert (Irest : forall p, In p rest -> p = []).
  { intros p Hp. destruct Hr as [-> | ->]; simpl in Hp; [tauto|].
    destruct Hp as [<- | []]. reflexivity. }
  apply NoDup_append; [apply NoDup_map_cons, N0 | |].
  - apply NoDup_append; [apply NoDup_map_cons, N1 | exact Nrest |].
    intros p Hp Hp'. apply Irest in Hp'. subst p.
    apply in_map_iff in Hp. destruct Hp as (q & E & _). discriminate.
  - intros p Hp Hp'. apply in_map_iff in Hp. destruct Hp as (q & <- & _).
    apply in_app_or in Hp'. destruct Hp' as [H | H].
    + apply in_map_iff in H. destruct H as (q' & E & _). discriminate.
    + apply Irest in H. discriminate.
Qed.

Lemma NoDup_terminal_paths : forall e, NoDup (terminal_paths e).
Proof.
  induction e as [d res v | t d res c0 IH0 c1 IH1]; simpl.
  - repeat constructor. simpl. tauto.
  - rewrite <- (app_nil_r (map (cons 1%nat) _)).
    apply NoDup_children; auto.
Qed.

Lemma NoDup_operator_paths : forall e, NoDup (operator_paths e).
Proof.
  induction e as [d res v | t d res c0 IH0 c1 IH1]; simpl.
  - constructor.
  - apply NoDup_children; auto.
Qed.

Lemma mark_compares_subseq : forall env e,
  subseq (visited is_compare (mark_trace env e)) (terminal_paths e).
Proof.
  intros env.
  induction e as [d res v | t d res c0 IH0 c1 IH1].
  - apply subseq_refl.
  - destruct d; [apply subseq_nil_l|].
    rewrite mark_trace_clean, !visited_app, !visited_under, visited_here.
    simpl. rewrite app_nil_r.
    apply subseq_app; apply subseq_map; assumption.
Qed.

Lemma eval_visits_subseq : forall env e,
  subseq (visited is_recompute (eval_trace env e)) (operator_paths e) /\
  subseq (visited is_refresh (eval_trace env e)) (terminal_paths e).
Proof.
  intros env.
  induction e as [d res v | t d res c0 IH0 c1 IH1].
  - split; [apply subseq_nil_l | apply subseq_refl].
  - destruct IH0 as [A0 B0], IH1 as [A1 B1].
    destruct d; [|split; apply subseq_nil_l].
    rewrite eval_trace_dirty, !visited_app, !visited_under, !visited_here.
    simpl. rewrite app_nil_r. split.
    + repeat apply subseq_app; try apply subseq_map; try assumption.
      apply subseq_refl.
    + apply subseq_app; apply subseq_map; assumption.
Qed.

(** X10.  Whatever state the tree is in, one call of [reevaluate] compares each
    terminal at most once, applies each operator at most once and rereads
    each terminal at most once, in the order of the tree. *)
Theorem reevaluate_visits_once : forall env e,
  let tr := reevaluate_trace env e in
  subseq (visited is_compare tr) (terminal_paths e) /\
  subseq (visited is_recompute tr) (operator_paths e) /\
  subseq (visited is_refresh tr) (terminal_paths e) /\
  NoDup (visited is_compare tr) /\
  NoDup (visited is_recompute tr) /\
  NoDup (visited is_refresh tr).
Proof.
  intros env e tr.
  assert (C : subseq (visited is_compare tr) (terminal_paths e)).
  { subst tr. rewrite reevaluate_trace_eq, visited_app.
    rewrite (visited_eval_trace_nil is_compare) by reflexivity.
    rewrite app_nil_r. apply mark_compares_subseq. }
  destruct (eval_visits_subseq env (mark_tree env e)) as [Rc Rf].
  rewrite operator_paths_mark in Rc. rewrite terminal_paths_mark in Rf.
  assert (Rc' : subseq (visited is_recompute tr) (operator_paths e)).
  { subst tr. rewrite reevaluate_trace_eq, visited_app.
    now rewrite (visited_mark_trace_nil is_recompute) by reflexivity. }
  assert (Rf' : subseq (visited is_refresh tr) (terminal_paths e)).
  { subst tr. rewrite reevaluate_trace_eq, visited_app.
    now rewrite (visited_mark_trace_nil is_refresh) by reflexivity. }
  repeat split; try assumption.
  - eapply subseq_NoDup; [exact C | apply NoDup_terminal_paths].
  - eapply subseq_NoDup; [exact Rc' | apply NoDup_operator_paths].
  - eapply subseq_NoDup; [exact Rf' | apply NoDup_terminal_paths].
Qed.

(** * The uninitialised [result] fields *)

Lemma direct_eval_skeleton : forall env e e',
  skeleton_of e = skeleton_of e' -> direct_eval env e = direct_eval env e'.
Proof.
  intros env.
  induction e as [d res v | t d res c0 IH0 c1 IH1];
    intros [d' res' v' | t' d' res' c0' c1'] E; simpl in E; try discriminate.
  - inversion E as [E']. simpl. now rewrite E'.
  - inversion E; subst. simpl. now rewrite (IH0 c0'), (IH1 c1').
Qed.

Lemma run_settled : forall envs e,
  settled e -> run e envs = map (fun env => direct_eval env e) envs.
Proof.
  induction envs as [|env envs IH]; intros e S; simpl; [reflexivity|].
  destruct (reevaluate_settled env e S) as [V I].
  rewrite V, IH by (right; exists env; exact I).
  f_equal. apply map_ext. intros env'.
  now rewrite reevaluate_tree_eq, direct_eval_eval, direct_eval_mark.
Qed.

(** X11.  Two trees built from the same expression return the same values call
    after call, whatever their [result] fields, which the constructor
    leaves uninitialised, happened to hold. *)
Theorem results_independent_of_garbage : forall e e' envs,
  built e -> built e' ->
  skeleton_of e = skeleton_of e' ->
  run e envs = run e' envs.
Proof.
  intros e e' envs B B' E.
  rewrite !run_settled by (left; apply built_operators_dirty; assumption).
  apply map_ext. intros env. apply direct_eval_skeleton, E.
Qed.

Lemma results_independent_of_garbage_witness :
  run (ui_expr 0 0 0 0 0) [ui_store; ui_store; ui_store_changed]
  = run (ui_expr 1 2 3 4 5) [ui_store; ui_store; ui_store_changed].
Proof.
  apply results_independent_of_garbage.
  - repeat constructor.
  - repeat constructor.
  - reflexivity.
Defined.

(** * Calling a [renderer] again and again *)

(** X12.  However often it is called, a [renderer] never throws: one nothing was
    assigned to stays as it is, and one a tree was assigned to holds the
    tree that the same calls of [reevaluate] leave, whatever it held before
    the assignment. *)
Theorem renderer_calls_return : forall envs r e,
  renderer_calls renderer_default envs = Returned renderer_default /\
  renderer_calls (renderer_assign r e) envs
  = Returned {| _f := Some (run_tree e envs) |}.
Proof.
  induction envs as [|env envs IH]; intros r e; simpl.
  - split; reflexivity.
  - destruct (IH r (reevaluate_tree env e)) as [D A]. split; [exact D|].
    exact (proj2 (IH {| _f := None |} (reevaluate_tree env e))).
Qed.

(** * The first call *)

(** C10.  A tree as built has every [dirty] flag set and every terminal's
    cache at the value-initialised [int], whatever the variables hold; its
    first [reevaluate] applies every operator and refreshes every terminal,
    and returns no cached result, in any store: the value returned is the
    direct value of the expression, and afterwards every terminal's cache
    holds its variable's value and every operator node's [result] the value
    of its subtree, whatever they held before. *)
Theorem first_reevaluate_recomputes_all : forall e env,
  built e ->
  every_dirty e = true /\
  terminal_caches e = map (fun _ => int_default) (terminal_paths e) /\
  visited is_recompute (reevaluate_trace env e) = operator_paths e /\
  visited is_refresh (reevaluate_trace env e) = terminal_paths e /\
  visited is_cache_hit (reevaluate_trace env e) = [] /\
  reevaluate_value env e = direct_eval env e /\
  in_sync env (reevaluate_tree env e) /\
  terminal_caches (reevaluate_tree env e) = map env (sources e).
Proof.
  intros e env B. split; [apply built_every_dirty, B|]. split.
  - induction B as [g x | t g l r _ IHl _ IHr]; simpl; [reflexivity|].
    now rewrite IHl, IHr, map_app, !map_map.
  - pose proof (mark_operators_dirty env e (built_operators_dirty e B)) as D.
    destruct (eval_dirty_visits_all env _ D) as (A1 & A2 & A3).
    rewrite reevaluate_trace_eq, !visited_app, A1, A2, A3.
    rewrite !visited_mark_trace_nil by reflexivity. simpl.
    rewrite operator_paths_mark, terminal_paths_mark.
    destruct (reevaluate_settled env e) as [V S].
    { left. apply built_operators_dirty, B. }
    repeat split; try assumption.
    rewrite (in_sync_terminal_caches env _ S). f_equal.
    apply sources_reevaluate.
Qed.

Lemma first_reevaluate_recomputes_all_witness :
  built (ui_expr 0 0 0 0 0) /\
  visited is_recompute (reevaluate_trace (fun _ => 0) (ui_expr 0 0 0 0 0))
  = [[0]; []]%nat /\
  visited is_refresh (reevaluate_trace (fun _ => 0) (ui_expr 0 0 0 0 0))
  = [[0; 0]; [0; 1]; [1]]%nat /\
  reevaluate_value ui_store (ui_expr 7 7 7 7 7) = 123 /\
  terminal_caches (reevaluate_tree ui_store (ui_expr 7 7 7 7 7)) = [1; 11; 111].
Proof.
  assert (B : built (ui_expr 0 0 0 0 0)) by repeat constructor.
  assert (B' : built (ui_expr 7 7 7 7 7)) by repeat constructor.
  split; [exact B|].
  destruct (first_reevaluate_recomputes_all _ (fun _ => 0) B)
    as (_ & _ & R & F & _).
  destruct (first_reevaluate_recomputes_all _ ui_store B')
    as (_ & _ & _ & _ & _ & V & _ & C).
  split; [exact R | split; [exact F | split; [exact V | exact C]]].
Defined.
